(** * Dose-correction loop of [examples/eclipse_integration.py]

    A shallow embedding of the part of the PortPy example script that
    computes the per-voxel correction term [delta] between the sparse and
    the full influence matrix (source lines 57, 97, 111 and 122-176), and
    the properties of that computation.

    Conventions of the embedding.
    - A number is a rational or one of the non-finite floats inf, -inf and
      nan ([num]). Arithmetic on rationals is exact: no rounding, no
      overflow, no underflow, and zero has no sign. An operation that has
      no finite value gives the non-finite value numpy gives, and the run
      goes on: the script's divisions are numpy divisions, which warn on a
      zero divisor and do not raise.
    - A 1-D numpy array is a [list num], one entry per voxel (or beamlet);
      the pointwise operations are on arrays of one common shape, as in
      the script, where every dose array has one entry per voxel.
    - The planning library is an interface ([library]): the two influence
      matrices, the plan's getters, the solver and [Evaluation.get_dose].
      A call into it either returns or fails; a failure reaches the script
      as an exception.
    - Every call to the solver and to [Evaluation.get_dose] is recorded, in
      program order, in a log of [event]s, so that what the script asks of
      the library can be stated. The log starts at the solve of line 57.
    - Data loading (lines 28-55), fluence export, DICOM import and
      plotting do not touch [delta] and are left out. *)

From Stdlib Require Import List String QArith Lia Bool Arith.
Import ListNotations.
Open Scope Q_scope.

(** ** Numbers *)

Inductive num : Type :=
| Fin (q : Q)
| PInf
| NInf
| NaN.

Definition nopp (a : num) : num :=
  match a with
  | Fin p => Fin (- p)
  | PInf => NInf
  | NInf => PInf
  | NaN => NaN
  end.

Definition nadd (a b : num) : num :=
  match a, b with
  | Fin p, Fin q => Fin (p + q)
  | NaN, _ | _, NaN => NaN
  | PInf, NInf | NInf, PInf => NaN
  | PInf, _ | _, PInf => PInf
  | NInf, _ | _, NInf => NInf
  end.

Definition nsub (a b : num) : num :=
  match a, b with
  | Fin p, Fin q => Fin (p - q)
  | _, _ => nadd a (nopp b)
  end.

(** An infinity of the sign of [p], nan for zero. *)
Definition inf_of_sign (p : Q) : num :=
  match p ?= 0 with
  | Gt => PInf
  | Lt => NInf
  | Eq => NaN
  end.

Definition nmul (a b : num) : num :=
  match a, b with
  | Fin p, Fin q => Fin (p * q)
  | NaN, _ | _, NaN => NaN
  | Fin p, PInf | PInf, Fin p => inf_of_sign p
  | Fin p, NInf | NInf, Fin p => inf_of_sign (- p)
  | PInf, PInf | NInf, NInf => PInf
  | PInf, NInf | NInf, PInf => NInf
  end.

(** Division as numpy divides floats: x / 0 is an infinity of the sign of
    x, 0 / 0 is nan, and a finite number over an infinity is 0. *)
Definition ndiv (a b : num) : num :=
  match a, b with
  | Fin p, Fin q => if Qeq_bool q 0 then inf_of_sign p else Fin (p / q)
  | NaN, _ | _, NaN => NaN
  | Fin _, PInf | Fin _, NInf => Fin 0
  | PInf, Fin q => match q ?= 0 with Lt => NInf | _ => PInf end
  | NInf, Fin q => match q ?= 0 with Lt => PInf | _ => NInf end
  | PInf, PInf | PInf, NInf | NInf, PInf | NInf, NInf => NaN
  end.

(** [<=] on floats: false whenever nan takes part. *)
Definition nle_bool (a b : num) : bool :=
  match a, b with
  | Fin p, Fin q => Qle_bool p q
  | NaN, _ | _, NaN => false
  | NInf, _ | _, PInf => true
  | PInf, _ | _, NInf => false
  end.

Declare Scope num_scope.
Delimit Scope num_scope with num.
Bind Scope num_scope with num.
Infix "+" := nadd : num_scope.
Infix "-" := nsub : num_scope.
Infix "*" := nmul : num_scope.
Infix "/" := ndiv : num_scope.
Open Scope num_scope.

(** ** Arrays *)

Definition vec := list num.
Definition matrix := list vec.

Fixpoint zip_with (f : num -> num -> num) (u v : vec) : vec :=
  match u, v with
  | a :: u', b :: v' => f a b :: zip_with f u' v'
  | _, _ => []
  end.

(** [u + v] and [u - v] on arrays. *)
Definition vadd : vec -> vec -> vec := zip_with nadd.
Definition vsub : vec -> vec -> vec := zip_with nsub.

(** [x * c] and [x / c], array by scalar. *)
Definition vscale (x : vec) (c : num) : vec := map (fun a => a * c) x.
Definition vdivs (x : vec) (c : num) : vec := map (fun a => a / c) x.

(** A row times an array; every entry of the row takes part. *)
Definition dot (r x : vec) : num := fold_right nadd (Fin 0) (zip_with nmul r x).

(** [A @ x], the matrix given by its rows. *)
Definition matvec (A : matrix) (x : vec) : vec := map (fun r => dot r x) A.

(** ** Calls that may raise, and the log of library calls *)

(** What a library call gives back. *)
Inductive lib_result (A : Type) : Type :=
| Returns (a : A)
| Fails (msg : string).
Arguments Returns {A} a.
Arguments Fails {A} msg.

(** The exceptions of a run: whatever a library call raised. The script's
    own statements between the calls are numpy arithmetic and do not
    raise. *)
Inductive exn : Type :=
| LibraryError (msg : string).

Inductive outcome (A : Type) : Type :=
| Ok (a : A)
| Raise (e : exn).
Arguments Ok {A} a.
Arguments Raise {A} e.

(** A solution: [sol['optimal_intensity']]; its other entries are not read
    by the script. *)
Record solution : Type := { optimal_intensity : vec }.

Inductive event : Type :=
| Solve (correction : option vec)
    (* opt.solve: [None] for the problem of line 55, [Some delta] for the
       problem of create_cvxpy_problem_correction(delta=delta) *)
| GetDose (s : solution) (dose_1d : vec) (struct : string) (volume_per : Q).
    (* pp.Evaluation.get_dose(s, dose_1d=, struct=, volume_per=) *)

(** A computation: the calls it made, then its value or the exception that
    ended it. Nothing in the script catches an exception, so [bind] has one
    rule for [Raise]: stop. *)
Definition M (A : Type) : Type := (list event * outcome A)%type.

Definition ret {A} (a : A) : M A := ([], Ok a).

Definition bind {A B} (m : M A) (f : A -> M B) : M B :=
  match m with
  | (l1, Ok a) => let (l2, r) := f a in (l1 ++ l2, r)
  | (l1, Raise e) => (l1, Raise e)
  end.

Definition raised {A} (r : lib_result A) : outcome A :=
  match r with
  | Returns a => Ok a
  | Fails msg => Raise (LibraryError msg)
  end.

Definition call {A} (ev : event) (r : lib_result A) : M A := ([ev], raised r).

Definition trace {A} (m : M A) : list event := fst m.
Definition result {A} (m : M A) : outcome A := snd m.

Declare Scope script_scope.
Delimit Scope script_scope with script.
Notation "x <- m ;; k" := (bind m (fun x => k))
  (at level 100, m at next level, right associativity) : script_scope.
Notation "' pat <- m ;; k" := (bind m (fun x => match x with pat => k end))
  (at level 100, pat pattern, m at next level, right associativity) : script_scope.

(** ** The planning library, as the script uses it *)

Record library : Type := {
  inf_matrix_A : matrix;                      (* inf_matrix.A, line 48 *)
  inf_matrix_full_A : matrix;                 (* inf_matrix_full.A, line 110 *)
  get_num_of_fractions : num;                 (* my_plan.get_num_of_fractions() *)
  get_prescription : num;                     (* my_plan.get_prescription() *)
  solve : lib_result solution;                   (* lines 54-57 *)
  solve_correction : vec -> lib_result solution; (* lines 146-149, delta=delta *)
  get_dose : solution -> vec -> string -> Q -> lib_result num
}.

(** ** The script *)

Definition norm_volume : Q := 90.            (* lines 126, 155 *)
Definition norm_struct : string := "PTV".    (* lines 127, 156 *)
Definition num_corr : nat := 2.              (* line 142 *)

(** The variables the loop assigns and reads again. *)
Record loop_vars : Type := {
  delta : vec;
  old_delta : vec;
  sol_corr : option solution
}.

Section Script.
Variable pp : library.
Local Open Scope script_scope.

(* line 97 *)
Definition dose_sparse_1d (sol : solution) : vec :=
  matvec (inf_matrix_A pp) (vscale (optimal_intensity sol) (get_num_of_fractions pp)).

(* line 111 *)
Definition dose_full_1d (sol : solution) : vec :=
  matvec (inf_matrix_full_A pp) (vscale (optimal_intensity sol) (get_num_of_fractions pp)).

Definition Evaluation_get_dose (s : solution) (dose_1d : vec) (struct : string)
    (volume_per : Q) : M num :=
  call (GetDose s dose_1d struct volume_per) (get_dose pp s dose_1d struct volume_per).

(** Lines 130-131, 133-134, 159-160 and 162-163 are the same two statements
    on four dose arrays:
      norm_factor = pp.Evaluation.get_dose(sol, dose_1d=dose_1d,
                        struct=norm_struct, volume_per=norm_volume) / pres
      dose_1d_norm = dose_1d / norm_factor *)
Definition normalize (sol : solution) (dose_1d : vec) : M vec :=
  let pres := get_prescription pp in
  g <- Evaluation_get_dose sol dose_1d norm_struct norm_volume ;;
  let norm_factor := g / pres in
  ret (vdivs dose_1d norm_factor).

(* lines 126-136 *)
Definition initial_delta (sol : solution) : M vec :=
  dose_sparse_1d_norm <- normalize sol (dose_sparse_1d sol) ;;
  dose_full_1d_norm <- normalize sol (dose_full_1d sol) ;;
  ret (vdivs (vsub dose_full_1d_norm dose_sparse_1d_norm) (get_num_of_fractions pp)).

(* line 151 *)
Definition dose_sparse_corr_1d (sc : solution) (d : vec) : vec :=
  vscale (vadd (matvec (inf_matrix_A pp) (optimal_intensity sc)) d)
         (get_num_of_fractions pp).

(* line 152 *)
Definition dose_full_corr_1d (sc : solution) : vec :=
  matvec (inf_matrix_full_A pp)
         (vscale (optimal_intensity sc) (get_num_of_fractions pp)).

(** Lines 146-165: re-solve with [d] as the correction term, then compute
    the new delta. Returns [sol_corr] and the delta of line 165. *)
Definition recompute_delta (sol : solution) (d : vec) : M (solution * vec) :=
  sc <- call (Solve (Some d)) (solve_correction pp d) ;;
  dose_sparse_corr_1d_norm <- normalize sol (dose_sparse_corr_1d sc d) ;;
  dose_full_corr_1d_norm <- normalize sol (dose_full_corr_1d sc) ;;
  let new := vdivs (vsub dose_full_corr_1d_norm dose_sparse_corr_1d_norm)
                   (get_num_of_fractions pp) in
  ret (sc, new).

(** One pass of the loop body, lines 145-176. *)
Definition loop_body (sol : solution) (st : loop_vars) : M loop_vars :=
  '(sc, new) <- recompute_delta sol (delta st) ;;
  let acc := vadd (old_delta st) new in       (* line 175 *)
  ret {| delta := acc; old_delta := acc; sol_corr := Some sc |}.  (* line 176 *)

(** [for i in range(n)]: the body does not read [i]. *)
Fixpoint correction_loop (sol : solution) (n : nat) (st : loop_vars) : M loop_vars :=
  match n with
  | O => ret st
  | S n' => st' <- loop_body sol st ;; correction_loop sol n' st'
  end.

(** Lines 57 and 97-176. *)
Definition script : M loop_vars :=
  sol <- call (Solve None) (solve pp) ;;
  d <- initial_delta sol ;;
  correction_loop sol num_corr {| delta := d; old_delta := d; sol_corr := None |}.

End Script.

(** ** Dose at volume *)

(** Modelled from the spec: [Evaluation.get_dose] is library code of this
    repository that is not among the sources read here. The spec calls its
    value the reference structure's "dose-at-volume" at a "volume
    percentile": the dose that [volume_per] percent of the structure
    receives. Here: among the doses of the structure's voxels, the largest
    one that at least [volume_per] percent of those voxels reach. A
    structure the plan does not have, or one without voxels, is a library
    error. *)
Definition struct_doses (vox : list nat) (dose_1d : vec) : vec :=
  flat_map (fun i => match nth_error dose_1d i with
                     | Some x => [x]
                     | None => []
                     end) vox.

Definition count_ge (D : num) (ds : vec) : nat :=
  List.length (filter (fun y => nle_bool D y) ds).

Definition reached (volume_per : Q) (ds : vec) (D : num) : bool :=
  Qle_bool (volume_per * inject_Z (Z.of_nat (List.length ds)))%Q
           (100 * inject_Z (Z.of_nat (count_ge D ds)))%Q.

Fixpoint qmax_list (l : vec) : option num :=
  match l with
  | [] => None
  | x :: l' =>
      match qmax_list l' with
      | None => Some x
      | Some m => Some (if nle_bool x m then m else x)
      end
  end.

Definition dose_at_volume (structures : string -> option (list nat))
    (dose_1d : vec) (struct : string) (volume_per : Q) : lib_result num :=
  match structures struct with
  | None => Fails "structure not in plan"
  | Some vox =>
      let ds := struct_doses vox dose_1d in
      match qmax_list (filter (reached volume_per ds) ds) with
      | Some D => Returns D
      | None => Fails "no dose at this volume"
      end
  end.

(** ** A small plan, for running the script *)

Module Example.

Definition structures (s : string) : option (list nat) :=
  if String.eqb s "PTV" then Some [0%nat; 1%nat] else None.

(** An array of finite numbers. *)
Definition arr (l : list Q) : vec := map Fin l.

(** Two voxels, two beamlets; the full matrix adds the scatter that the
    sparse one truncates. The correction solve lowers the intensity where
    the correction term is positive. *)
Definition plan : library := {|
  inf_matrix_A := [arr [1; 0]; arr [0; 1]];
  inf_matrix_full_A := [arr [1; 1#10]; arr [1#10; 1]];
  get_num_of_fractions := Fin 30;
  get_prescription := Fin 60;
  solve := Returns {| optimal_intensity := arr [2; 3] |};
  solve_correction := fun d =>
    Returns {| optimal_intensity := vsub (arr [2; 3]) d |};
  get_dose := fun _ d s v => dose_at_volume structures d s v
|}.

(** The solution [solve] returns for [plan], and loop variables to start
    an iteration from. *)
Definition sol : solution := {| optimal_intensity := arr [2; 3] |}.

Definition start : loop_vars :=
  {| delta := arr [0; -5 # 23]; old_delta := arr [0; -5 # 23]; sol_corr := None |}.

(** The same plan with a solver that fails at once. *)
Definition unsolved : library := {|
  inf_matrix_A := inf_matrix_A plan;
  inf_matrix_full_A := inf_matrix_full_A plan;
  get_num_of_fractions := get_num_of_fractions plan;
  get_prescription := get_prescription plan;
  solve := Fails "MOSEK";
  solve_correction := solve_correction plan;
  get_dose := get_dose plan
|}.

(** The same plan with a solver that accepts the correction term [-5/23]
    on the second voxel and fails on any other. *)
Definition stalls : library := {|
  inf_matrix_A := inf_matrix_A plan;
  inf_matrix_full_A := inf_matrix_full_A plan;
  get_num_of_fractions := get_num_of_fractions plan;
  get_prescription := get_prescription plan;
  solve := solve plan;
  solve_correction := fun d =>
    match d with
    | [_; Fin b] =>
        if Qeq_bool b (-5 # 23) then solve_correction plan d else Fails "MOSEK"
    | _ => Fails "MOSEK"
    end;
  get_dose := get_dose plan
|}.

(** The same plan with a correction solve that answers with a low
    intensity on the second beamlet. *)
Definition dim : library := {|
  inf_matrix_A := inf_matrix_A plan;
  inf_matrix_full_A := inf_matrix_full_A plan;
  get_num_of_fractions := get_num_of_fractions plan;
  get_prescription := get_prescription plan;
  solve := solve plan;
  solve_correction := fun _ => Returns {| optimal_intensity := arr [2; 1 # 10] |};
  get_dose := get_dose plan
|}.

(** A plan whose full matrix is its sparse matrix: nothing truncated. *)
Definition exact : library := {|
  inf_matrix_A := inf_matrix_A plan;
  inf_matrix_full_A := inf_matrix_A plan;
  get_num_of_fractions := get_num_of_fractions plan;
  get_prescription := get_prescription plan;
  solve := solve plan;
  solve_correction := solve_correction plan;
  get_dose := get_dose plan
|}.


(** The same plan with a correction solve that answers [2; 3] whatever
    the correction term, and loop variables whose correction term makes
    up for what the sparse matrix truncates at that answer. *)
Definition settled : library := {|
  inf_matrix_A := inf_matrix_A plan;
  inf_matrix_full_A := inf_matrix_full_A plan;
  get_num_of_fractions := get_num_of_fractions plan;
  get_prescription := get_prescription plan;
  solve := solve plan;
  solve_correction := fun _ => Returns {| optimal_intensity := arr [2; 3] |};
  get_dose := get_dose plan
|}.

Definition kept : loop_vars :=
  {| delta := arr [3 # 10; 1 # 5]; old_delta := arr [3 # 10; 1 # 5];
     sol_corr := None |}.

(** The same plan without a prescription. *)
Definition unprescribed : library := {|
  inf_matrix_A := inf_matrix_A plan;
  inf_matrix_full_A := inf_matrix_full_A plan;
  get_num_of_fractions := get_num_of_fractions plan;
  get_prescription := Fin 0;
  solve := solve plan;
  solve_correction := solve_correction plan;
  get_dose := get_dose plan
|}.

End Example.

(** ** Reading a run *)

(** The correction terms handed to the solver, in call order. *)
Fixpoint corrections (l : list event) : list vec :=
  match l with
  | [] => []
  | Solve (Some d) :: l' => d :: corrections l'
  | _ :: l' => corrections l'
  end.

(** The first argument of each [Evaluation.get_dose] call. *)
Fixpoint dose_solutions (l : list event) : list solution :=
  match l with
  | [] => []
  | GetDose s _ _ _ :: l' => s :: dose_solutions l'
  | _ :: l' => dose_solutions l'
  end.

(** The running totals [acc; acc + d1; acc + d1 + d2; ...] before each of
    the iterations that computed [d1; d2; ...]. *)
Fixpoint running_totals (acc : vec) (ds : list vec) : list vec :=
  match ds with
  | [] => []
  | d :: ds' => acc :: running_totals (vadd acc d) ds'
  end.

(** [deltas_from pp sol acc ds]: starting from the accumulated delta [acc],
    successive iterations compute the deltas [ds] (line 165), each from the
    total accumulated so far. *)
Inductive deltas_from (pp : library) (sol : solution) : vec -> list vec -> Prop :=
| deltas_nil : forall acc, deltas_from pp sol acc []
| deltas_cons : forall acc sc new ds,
    result (recompute_delta pp sol acc) = Ok (sc, new) ->
    deltas_from pp sol (vadd acc new) ds ->
    deltas_from pp sol acc (new :: ds).

(** The accumulated delta after each completed iteration. *)
Fixpoint delta_history (pp : library) (sol : solution) (n : nat)
    (st : loop_vars) : list vec :=
  match n with
  | O => []
  | S n' =>
      match result (loop_body pp sol st) with
      | Ok st' => delta st' :: delta_history pp sol n' st'
      | Raise _ => []
      end
  end.




Definition finite_nonzero (a : num) : Prop :=
  match a with
  | Fin q => ~ q == 0
  | _ => False
  end.

Definition is_zero (a : num) : Prop :=
  match a with
  | Fin q => q == 0
  | _ => False
  end.

(** The same number: equal rationals, or the same non-finite value. *)
Definition same_num (a b : num) : Prop :=
  match a, b with
  | Fin p, Fin q => p == q
  | PInf, PInf | NInf, NInf | NaN, NaN => True
  | _, _ => False
  end.

(** Finite and equal. *)
Definition agree_num (a b : num) : Prop :=
  match a, b with
  | Fin p, Fin q => p == q
  | _, _ => False
  end.

(** Arrays with the same entries. *)
Definition veq : vec -> vec -> Prop := Forall2 same_num.

(** Arrays of finite entries that are equal entry by entry. *)
Definition agree : vec -> vec -> Prop := Forall2 agree_num.

(** An array of zeros. *)
Definition all_zero : vec -> Prop := Forall is_zero.

(** A call that, if it is a dose evaluation, is made at the reference
    point of lines 126-127 and 155-156. *)
Definition at_reference_point (ev : event) : Prop :=
  match ev with
  | GetDose _ _ struct volume_per =>
      struct = norm_struct /\ volume_per = norm_volume
  | Solve _ => True
  end.

(** The solves of the problem without a correction term. *)
Fixpoint uncorrected_solves (l : list event) : nat :=
  match l with
  | [] => O
  | Solve None :: l' => S (uncorrected_solves l')
  | _ :: l' => uncorrected_solves l'
  end.

(** ** Laws of sequencing *)

Lemma bind_unfold {A B} (m : M A) (f : A -> M B) :
  bind m f =
  match result m with
  | Ok a => (trace m ++ trace (f a), result (f a))
  | Raise e => (trace m, Raise e)
  end.
Proof.
  destruct m as [l [a|e]]; simpl; [destruct (f a); reflexivity | reflexivity].
Qed.

Lemma trace_bind {A B} (m : M A) (f : A -> M B) :
  trace (bind m f) =
  match result m with
  | Ok a => trace m ++ trace (f a)
  | Raise _ => trace m
  end.
Proof. rewrite bind_unfold; destruct (result m); reflexivity. Qed.

Lemma result_bind {A B} (m : M A) (f : A -> M B) :
  result (bind m f) =
  match result m with
  | Ok a => result (f a)
  | Raise e => Raise e
  end.
Proof. rewrite bind_unfold; destruct (result m); reflexivity. Qed.

Lemma result_bind_Ok {A B} (m : M A) (f : A -> M B) (b : B) :
  result (bind m f) = Ok b ->
  exists a, result m = Ok a /\ result (f a) = Ok b.
Proof.
  rewrite result_bind; destruct (result m) as [a|e]; [eauto | discriminate].
Qed.

Lemma result_ret {A} (a : A) : result (ret a) = Ok a.
Proof. reflexivity. Qed.

Lemma trace_ret {A} (a : A) : trace (ret a) = [].
Proof. reflexivity. Qed.

Lemma result_call {A} (ev : event) (r : lib_result A) :
  result (call ev r) = raised r.
Proof. reflexivity. Qed.

Lemma trace_call {A} (ev : event) (r : lib_result A) :
  trace (call ev r) = [ev].
Proof. reflexivity. Qed.

Lemma raised_Ok {A} (r : lib_result A) (a : A) :
  raised r = Ok a -> r = Returns a.
Proof. destruct r; simpl; congruence. Qed.

(** ** The steps of the script, inverted *)

Section Steps.
Variable pp : library.

Lemma trace_normalize (sol : solution) (d : vec) :
  trace (normalize pp sol d) = [GetDose sol d norm_struct norm_volume].
Proof.
  unfold normalize, Evaluation_get_dose, call.
  destruct (get_dose pp sol d norm_struct norm_volume) as [g|msg]; reflexivity.
Qed.

Lemma result_normalize (sol : solution) (d : vec) :
  result (normalize pp sol d) =
  match get_dose pp sol d norm_struct norm_volume with
  | Returns g => Ok (vdivs d (g / get_prescription pp))
  | Fails msg => Raise (LibraryError msg)
  end.
Proof.
  unfold normalize, Evaluation_get_dose, call.
  destruct (get_dose pp sol d norm_struct norm_volume) as [g|msg]; reflexivity.
Qed.

Lemma normalize_Ok (sol : solution) (d d' : vec) :
  result (normalize pp sol d) = Ok d' ->
  exists g,
    get_dose pp sol d norm_struct norm_volume = Returns g /\
    d' = vdivs d (g / get_prescription pp).
Proof.
  rewrite result_normalize.
  destruct (get_dose pp sol d norm_struct norm_volume) as [g|msg]; [|discriminate].
  intros [= <-]; exists g; split; reflexivity.
Qed.

Lemma normalize_returns (sol : solution) (d : vec) (g : num) :
  get_dose pp sol d norm_struct norm_volume = Returns g ->
  result (normalize pp sol d) = Ok (vdivs d (g / get_prescription pp)).
Proof. intro Hg; rewrite result_normalize, Hg; reflexivity. Qed.

Lemma initial_delta_Ok (sol : solution) (d0 : vec) :
  result (initial_delta pp sol) = Ok d0 ->
  exists gs gf,
    get_dose pp sol (dose_sparse_1d pp sol) norm_struct norm_volume = Returns gs /\
    get_dose pp sol (dose_full_1d pp sol) norm_struct norm_volume = Returns gf /\
    d0 = vdivs (vsub (vdivs (dose_full_1d pp sol) (gf / get_prescription pp))
                     (vdivs (dose_sparse_1d pp sol) (gs / get_prescription pp)))
               (get_num_of_fractions pp).
Proof.
  unfold initial_delta; intro H.
  apply result_bind_Ok in H as (ns & Hs & H).
  apply result_bind_Ok in H as (nf & Hf & H).
  rewrite result_ret in H; injection H as <-.
  apply normalize_Ok in Hs as (gs & Hgs & ->).
  apply normalize_Ok in Hf as (gf & Hgf & ->).
  exists gs, gf; repeat split; assumption.
Qed.

Lemma trace_initial_delta_Ok (sol : solution) (d0 : vec) :
  result (initial_delta pp sol) = Ok d0 ->
  trace (initial_delta pp sol) =
  [GetDose sol (dose_sparse_1d pp sol) norm_struct norm_volume;
   GetDose sol (dose_full_1d pp sol) norm_struct norm_volume].
Proof.
  unfold initial_delta; intro H.
  rewrite result_bind in H; rewrite trace_bind, trace_normalize.
  destruct (result (normalize pp sol (dose_sparse_1d pp sol))) as [ns|]; [|discriminate].
  rewrite result_bind in H; rewrite trace_bind, trace_normalize.
  destruct (result (normalize pp sol (dose_full_1d pp sol))) as [nf|]; [|discriminate].
  reflexivity.
Qed.

Lemma recompute_delta_Ok (sol : solution) (d : vec) (sc : solution) (new : vec) :
  result (recompute_delta pp sol d) = Ok (sc, new) ->
  exists gs gf,
    solve_correction pp d = Returns sc /\
    get_dose pp sol (dose_sparse_corr_1d pp sc d) norm_struct norm_volume = Returns gs /\
    get_dose pp sol (dose_full_corr_1d pp sc) norm_struct norm_volume = Returns gf /\
    new = vdivs (vsub (vdivs (dose_full_corr_1d pp sc) (gf / get_prescription pp))
                      (vdivs (dose_sparse_corr_1d pp sc d) (gs / get_prescription pp)))
                (get_num_of_fractions pp).
Proof.
  unfold recompute_delta; intro H.
  apply result_bind_Ok in H as (sc' & Hsc & H).
  apply result_bind_Ok in H as (ns & Hs & H).
  apply result_bind_Ok in H as (nf & Hf & H).
  rewrite result_ret in H; injection H as <- <-.
  apply normalize_Ok in Hs as (gs & Hgs & ->).
  apply normalize_Ok in Hf as (gf & Hgf & ->).
  apply raised_Ok in Hsc.
  exists gs, gf; repeat split; assumption.
Qed.

Lemma trace_recompute_delta_Ok (sol : solution) (d : vec) (sc : solution) (new : vec) :
  result (recompute_delta pp sol d) = Ok (sc, new) ->
  trace (recompute_delta pp sol d) =
  [Solve (Some d);
   GetDose sol (dose_sparse_corr_1d pp sc d) norm_struct norm_volume;
   GetDose sol (dose_full_corr_1d pp sc) norm_struct norm_volume].
Proof.
  unfold recompute_delta; intro H.
  rewrite result_bind, result_call in H; rewrite trace_bind, result_call, trace_call.
  destruct (raised (solve_correction pp d)) as [sc'|]; [|discriminate].
  rewrite result_bind in H; rewrite trace_bind, trace_normalize.
  destruct (result (normalize pp sol (dose_sparse_corr_1d pp sc' d))) as [ns|]; [|discriminate].
  rewrite result_bind in H; rewrite trace_bind, trace_normalize.
  destruct (result (normalize pp sol (dose_full_corr_1d pp sc'))) as [nf|]; [|discriminate].
  rewrite result_ret in H; injection H as -> _; reflexivity.
Qed.

Lemma loop_body_Ok (sol : solution) (st st' : loop_vars) :
  result (loop_body pp sol st) = Ok st' ->
  exists sc new,
    result (recompute_delta pp sol (delta st)) = Ok (sc, new) /\
    st' = {| delta := vadd (old_delta st) new;
             old_delta := vadd (old_delta st) new;
             sol_corr := Some sc |}.
Proof.
  unfold loop_body; intro H.
  apply result_bind_Ok in H as ([sc new] & Hr & H).
  injection H as <-; eauto.
Qed.

Lemma trace_loop_body (sol : solution) (st : loop_vars) :
  trace (loop_body pp sol st) = trace (recompute_delta pp sol (delta st)).
Proof.
  unfold loop_body; rewrite trace_bind.
  destruct (result (recompute_delta pp sol (delta st))) as [[sc new]|]; [|reflexivity].
  simpl; apply app_nil_r.
Qed.

Lemma correction_loop_S (sol : solution) (n : nat) (st : loop_vars) :
  correction_loop pp sol (S n) st =
  bind (loop_body pp sol st) (fun st' => correction_loop pp sol n st').
Proof. reflexivity. Qed.

End Steps.

(** ** Facts about logs *)

Lemma corrections_app (l1 l2 : list event) :
  corrections (l1 ++ l2) = corrections l1 ++ corrections l2.
Proof.
  induction l1 as [|[[d|]|s d st v] l1 IH]; simpl; rewrite ?IH; reflexivity.
Qed.

Lemma dose_solutions_app (l1 l2 : list event) :
  dose_solutions (l1 ++ l2) = dose_solutions l1 ++ dose_solutions l2.
Proof.
  induction l1 as [|[[d|]|s d st v] l1 IH]; simpl; rewrite ?IH; reflexivity.
Qed.

Section Logs.
Variable pp : library.

Lemma corrections_normalize (sol : solution) (d : vec) :
  corrections (trace (normalize pp sol d)) = [].
Proof. rewrite trace_normalize; reflexivity. Qed.

Lemma corrections_initial_delta (sol : solution) :
  corrections (trace (initial_delta pp sol)) = [].
Proof.
  unfold initial_delta.
  rewrite trace_bind.
  destruct (result (normalize pp sol (dose_sparse_1d pp sol)));
    [|apply corrections_normalize].
  rewrite corrections_app, corrections_normalize, trace_bind.
  destruct (result (normalize pp sol (dose_full_1d pp sol)));
    [|apply corrections_normalize].
  rewrite corrections_app, corrections_normalize; reflexivity.
Qed.

Lemma corrections_recompute_delta (sol : solution) (d : vec) :
  corrections (trace (recompute_delta pp sol d)) = [d].
Proof.
  unfold recompute_delta; rewrite trace_bind, result_call, trace_call.
  destruct (raised (solve_correction pp d)) as [sc|]; [|reflexivity].
  rewrite corrections_app.
  change (corrections [Solve (Some d)]) with [d].
  assert (E : forall l, l = [] -> [d] ++ l = [d]) by (intros l ->; reflexivity).
  apply E; clear E.
  rewrite trace_bind.
  destruct (result (normalize pp sol (dose_sparse_corr_1d pp sc d)));
    [|apply corrections_normalize].
  rewrite corrections_app, corrections_normalize, trace_bind.
  destruct (result (normalize pp sol (dose_full_corr_1d pp sc)));
    [|apply corrections_normalize].
  rewrite corrections_app, corrections_normalize; reflexivity.
Qed.

End Logs.

(** ** Accumulation (C1) *)

(** C1. In the correction loop the delta carried into the next iteration
    is the running total: an iteration that starts from the accumulated
    delta [acc] and computes [new] hands [acc + new] to the next one. So a
    loop of [k] iterations that runs to its end has computed [k] deltas
    [ds], each from the total before it; the correction terms it gave the
    solver are the running totals; and the accumulated delta at the end is
    the initial delta plus the sum of [ds]. *)
Theorem correction_loop_accumulates (pp : library) (sol : solution) (k : nat) :
  forall st st' : loop_vars,
    old_delta st = delta st ->
    result (correction_loop pp sol k st) = Ok st' ->
    exists ds : list vec,
      List.length ds = k /\
      deltas_from pp sol (delta st) ds /\
      corrections (trace (correction_loop pp sol k st)) = running_totals (delta st) ds /\
      delta st' = fold_left vadd ds (delta st) /\
      old_delta st' = delta st'.
Proof.
  induction k as [|k IH]; intros st st' Hinv H.
  - injection H as <-.
    exists []; split; [reflexivity|].
    split; [apply deltas_nil|].
    split; [reflexivity|].
    split; [reflexivity | exact Hinv].
  - rewrite correction_loop_S in *.
    rewrite trace_bind.
    apply result_bind_Ok in H as (st1 & Hbody & Hrest).
    rewrite Hbody.
    destruct (loop_body_Ok _ _ _ _ Hbody) as (sc & new & Hnew & ->).
    rewrite Hinv in *.
    pose proof (fun Hst => IH _ _ Hst Hrest) as IH'.
    destruct (IH' eq_refl) as (ds & Hlen & Hds & Htr & Hsum & Hold).
    simpl in Hds, Htr, Hsum.
    exists (new :: ds); repeat split.
    + simpl; congruence.
    + econstructor; eassumption.
    + rewrite corrections_app, trace_loop_body, corrections_recompute_delta, Htr.
      reflexivity.
    + exact Hsum.
    + exact Hold.
Qed.

(** ** What an iteration computes (C3, C8) and the initial delta (C4) *)

(** C3. Every iteration of the correction loop re-runs the optimization
    with the current accumulated delta as the correction term (the first
    call of the iteration is that solve), takes both doses from the new
    solution's optimal intensity, normalizes each by its dose at the
    reference point over the prescription, and recomputes delta as the
    normalized full dose minus the normalized sparse dose, divided by the
    fraction count. *)
Theorem loop_body_recomputes_delta (pp : library) (sol : solution)
    (st st' : loop_vars) :
  result (loop_body pp sol st) = Ok st' ->
  exists (sc : solution) (gs gf : num) (new : vec),
    let x := optimal_intensity sc in
    let n := get_num_of_fractions pp in
    let pres := get_prescription pp in
    let sparse := vscale (vadd (matvec (inf_matrix_A pp) x) (delta st)) n in
    let full := matvec (inf_matrix_full_A pp) (vscale x n) in
    hd_error (trace (loop_body pp sol st)) = Some (Solve (Some (delta st))) /\
    solve_correction pp (delta st) = Returns sc /\
    sol_corr st' = Some sc /\
    get_dose pp sol sparse norm_struct norm_volume = Returns gs /\
    get_dose pp sol full norm_struct norm_volume = Returns gf /\
    new = vdivs (vsub (vdivs full (gf / pres)) (vdivs sparse (gs / pres))) n /\
    delta st' = vadd (old_delta st) new.
Proof.
  intro H.
  destruct (loop_body_Ok _ _ _ _ H) as (sc & new & Hnew & ->).
  destruct (recompute_delta_Ok _ _ _ _ _ Hnew) as (gs & gf & Hsc & Hgs & Hgf & ->).
  exists sc, gs, gf; eexists; cbv zeta.
  rewrite trace_loop_body, (trace_recompute_delta_Ok _ _ _ _ _ Hnew).
  repeat (split; [first [reflexivity | eassumption]|]).
  reflexivity.
Qed.

(** C8. In every iteration the correction term enters one dose estimate
    only: the sparse dose evaluated is (sparse matrix times the new
    intensity, plus the current accumulated delta) times the fraction
    count, the full dose evaluated is the full matrix times (the new
    intensity times the fraction count), with no delta. These are the two
    arrays the iteration hands to the dose evaluation, in this order. *)
Theorem delta_enters_sparse_dose_only (pp : library) (sol : solution)
    (st st' : loop_vars) :
  result (loop_body pp sol st) = Ok st' ->
  exists sc : solution,
    let x := optimal_intensity sc in
    let n := get_num_of_fractions pp in
    sol_corr st' = Some sc /\
    dose_sparse_corr_1d pp sc (delta st) =
      vscale (vadd (matvec (inf_matrix_A pp) x) (delta st)) n /\
    dose_full_corr_1d pp sc = matvec (inf_matrix_full_A pp) (vscale x n) /\
    trace (loop_body pp sol st) =
      [Solve (Some (delta st));
       GetDose sol (vscale (vadd (matvec (inf_matrix_A pp) x) (delta st)) n)
               norm_struct norm_volume;
       GetDose sol (matvec (inf_matrix_full_A pp) (vscale x n))
               norm_struct norm_volume].
Proof.
  intro H.
  destruct (loop_body_Ok _ _ _ _ H) as (sc & new & Hnew & ->).
  exists sc; cbv zeta.
  rewrite trace_loop_body, (trace_recompute_delta_Ok _ _ _ _ _ Hnew).
  repeat split.
Qed.

Lemma trace_script_Returns (pp : library) (sol : solution) (d0 : vec) :
  solve pp = Returns sol ->
  result (initial_delta pp sol) = Ok d0 ->
  trace (script pp) =
  [Solve None] ++ trace (initial_delta pp sol) ++
  trace (correction_loop pp sol num_corr
           {| delta := d0; old_delta := d0; sol_corr := None |}).
Proof.
  intros Hsol Hd0; unfold script.
  rewrite trace_bind, result_call, trace_call, Hsol; simpl raised; cbv iota beta.
  rewrite trace_bind, Hd0; reflexivity.
Qed.

Lemma result_script_Returns (pp : library) (sol : solution) (d0 : vec) :
  solve pp = Returns sol ->
  result (initial_delta pp sol) = Ok d0 ->
  result (script pp) =
  result (correction_loop pp sol num_corr
            {| delta := d0; old_delta := d0; sol_corr := None |}).
Proof.
  intros Hsol Hd0; unfold script.
  rewrite result_bind, result_call, Hsol; simpl raised; cbv iota beta.
  rewrite result_bind, Hd0; reflexivity.
Qed.

(** C4. The delta fed into the first correction iteration is the full
    dose minus the sparse dose, each first normalized by its dose at the
    reference point (PTV, 90 percent volume) over the prescription, the
    difference divided by the fraction count: it is the correction term of
    the first correction solve of the script. *)
Theorem initial_delta_is_normalized_difference (pp : library) (sol : solution)
    (d0 : vec) :
  solve pp = Returns sol ->
  result (initial_delta pp sol) = Ok d0 ->
  let x := optimal_intensity sol in
  let n := get_num_of_fractions pp in
  let pres := get_prescription pp in
  let sparse := matvec (inf_matrix_A pp) (vscale x n) in
  let full := matvec (inf_matrix_full_A pp) (vscale x n) in
  (exists gs gf : num,
     get_dose pp sol sparse "PTV" 90 = Returns gs /\
     get_dose pp sol full "PTV" 90 = Returns gf /\
     d0 = vdivs (vsub (vdivs full (gf / pres)) (vdivs sparse (gs / pres))) n) /\
  hd_error (corrections (trace (script pp))) = Some d0.
Proof.
  intros Hsol Hd0; cbv zeta; split.
  - destruct (initial_delta_Ok _ _ _ Hd0) as (gs & gf & Hgs & Hgf & ->).
    exists gs, gf; repeat split; assumption.
  - rewrite (trace_script_Returns _ _ _ Hsol Hd0).
    rewrite !corrections_app, corrections_initial_delta.
    unfold num_corr; rewrite correction_loop_S, trace_bind, trace_loop_body.
    destruct (result (loop_body pp sol _));
      rewrite ?corrections_app, corrections_recompute_delta; reflexivity.
Qed.

(** ** Iteration count (C5), failures (C7), the solution evaluated (C9) *)

Lemma correction_loop_add (pp : library) (sol : solution) (n m : nat) :
  forall st,
    correction_loop pp sol (n + m) st =
    bind (correction_loop pp sol n st) (fun st' => correction_loop pp sol m st').
Proof.
  induction n as [|n IH]; intro st.
  - simpl. destruct (correction_loop pp sol m st); reflexivity.
  - change (S n + m)%nat with (S (n + m)).
    rewrite !correction_loop_S, !bind_unfold.
    destruct (result (loop_body pp sol st)) as [st1|e]; [|reflexivity].
    rewrite IH, !bind_unfold.
    destruct (result (correction_loop pp sol n st1)) as [st2|e]; simpl;
      rewrite ?app_assoc; reflexivity.
Qed.


Section Completion.
Variable pp : library.








End Completion.


(** C7. No failure of the solver is caught or checked. If the initial
    solve fails, the script ends with that exception right after the one
    call. If a correction solve fails, in whatever iteration, the loop
    ends with that exception right after that one call: no later call, no
    second attempt, no other outcome. And an exception that ends the loop
    ends the script. A failing dose evaluation ends the normalization the
    same way. *)
Theorem solver_failure_propagates (pp : library) (msg : string) :
  (solve pp = Fails msg ->
   script pp = ([Solve None], Raise (LibraryError msg))) /\
  (forall sol n m st st',
     result (correction_loop pp sol n st) = Ok st' ->
     solve_correction pp (delta st') = Fails msg ->
     correction_loop pp sol (n + S m) st =
       (trace (correction_loop pp sol n st) ++ [Solve (Some (delta st'))],
        Raise (LibraryError msg))) /\
  (forall sol d0 e,
     solve pp = Returns sol ->
     result (initial_delta pp sol) = Ok d0 ->
     result (correction_loop pp sol num_corr
               {| delta := d0; old_delta := d0; sol_corr := None |}) = Raise e ->
     result (script pp) = Raise e) /\
  (forall sol d,
     get_dose pp sol d norm_struct norm_volume = Fails msg ->
     normalize pp sol d =
       ([GetDose sol d norm_struct norm_volume], Raise (LibraryError msg))).
Proof.
  split; [|split; [|split]].
  4: { intros sol d H; unfold normalize, Evaluation_get_dose, call.
       rewrite H; reflexivity. }
  - intro H; unfold script, call; rewrite H; reflexivity.
  - intros sol n m st st' Hn Hfail.
    rewrite correction_loop_add, bind_unfold, Hn, correction_loop_S.
    unfold loop_body, recompute_delta, call; rewrite Hfail; reflexivity.
  - intros sol d0 e Hsol Hd0 H.
    rewrite (result_script_Returns _ _ _ Hsol Hd0); exact H.
Qed.

Section Evaluated.
Variable pp : library.

Lemma dose_solutions_normalize (sol : solution) (d : vec) :
  dose_solutions (trace (normalize pp sol d)) = [sol].
Proof. rewrite trace_normalize; reflexivity. Qed.

Lemma dose_solutions_initial_delta (sol : solution) :
  Forall (eq sol) (dose_solutions (trace (initial_delta pp sol))).
Proof.
  unfold initial_delta; rewrite trace_bind.
  destruct (result (normalize pp sol (dose_sparse_1d pp sol)));
    rewrite ?dose_solutions_app, dose_solutions_normalize; [|repeat constructor].
  rewrite trace_bind.
  destruct (result (normalize pp sol (dose_full_1d pp sol)));
    rewrite ?dose_solutions_app, dose_solutions_normalize; repeat constructor.
Qed.

Lemma dose_solutions_recompute_delta (sol : solution) (d : vec) :
  Forall (eq sol) (dose_solutions (trace (recompute_delta pp sol d))).
Proof.
  unfold recompute_delta; rewrite trace_bind, result_call, trace_call.
  destruct (raised (solve_correction pp d)) as [sc|]; [|constructor].
  rewrite dose_solutions_app, trace_bind; apply Forall_app; split; [constructor|].
  destruct (result (normalize pp sol (dose_sparse_corr_1d pp sc d)));
    rewrite ?dose_solutions_app, dose_solutions_normalize; [|repeat constructor].
  rewrite trace_bind.
  destruct (result (normalize pp sol (dose_full_corr_1d pp sc)));
    rewrite ?dose_solutions_app, dose_solutions_normalize; [|repeat constructor].
  simpl; repeat constructor.
Qed.

Lemma dose_solutions_correction_loop (sol : solution) (n : nat) :
  forall st,
    Forall (eq sol) (dose_solutions (trace (correction_loop pp sol n st))).
Proof.
  induction n as [|n IH]; intro st; [constructor|].
  rewrite correction_loop_S, trace_bind, trace_loop_body.
  destruct (result (loop_body pp sol st)) as [st1|e];
    [|apply dose_solutions_recompute_delta].
  rewrite dose_solutions_app; apply Forall_app; split;
    [apply dose_solutions_recompute_delta | apply IH].
Qed.

Lemma dose_solutions_correction_loop_Ok (sol : solution) (n : nat) :
  forall st st',
    result (correction_loop pp sol n st) = Ok st' ->
    dose_solutions (trace (correction_loop pp sol n st)) = repeat sol (2 * n).
Proof.
  induction n as [|n IH]; intros st st' H; [reflexivity|].
  rewrite correction_loop_S in *; rewrite trace_bind, trace_loop_body.
  apply result_bind_Ok in H as (st1 & Hbody & Hrest); rewrite Hbody.
  destruct (loop_body_Ok _ _ _ _ Hbody) as (sc & new & Hnew & _).
  rewrite (trace_recompute_delta_Ok _ _ _ _ _ Hnew), dose_solutions_app.
  rewrite (IH _ _ Hrest).
  replace (2 * S n)%nat with (S (S (2 * n))) by lia; reflexivity.
Qed.

End Evaluated.

(** C9. The loop does not rebind [sol]: it is fixed before the loop, and
    the variables the loop assigns ([loop_vars]) do not include it. Every
    dose-at-volume evaluation of the loop is made with that solution, two
    in each completed iteration, whatever [sol_corr] the iteration's solve
    returned; and so is every evaluation of the whole script. *)
Theorem loop_evaluates_with_original_solution (pp : library) (sol : solution) :
  (forall n st,
     Forall (eq sol) (dose_solutions (trace (correction_loop pp sol n st)))) /\
  (forall n st st',
     result (correction_loop pp sol n st) = Ok st' ->
     dose_solutions (trace (correction_loop pp sol n st)) = repeat sol (2 * n)) /\
  (solve pp = Returns sol ->
   Forall (eq sol) (dose_solutions (trace (script pp)))).
Proof.
  split; [|split].
  - intros n st; apply dose_solutions_correction_loop.
  - intros n st st'; apply dose_solutions_correction_loop_Ok.
  - intro Hsol; unfold script.
    rewrite trace_bind, result_call, trace_call, Hsol; simpl raised; cbv iota beta.
    rewrite dose_solutions_app; apply Forall_app; split; [constructor|].
    rewrite trace_bind.
    destruct (result (initial_delta pp sol)) as [d0|e];
      [|apply dose_solutions_initial_delta].
    rewrite dose_solutions_app; apply Forall_app; split;
      [apply dose_solutions_initial_delta | apply dose_solutions_correction_loop].
Qed.

(** ** Normalization against the modelled dose at volume (C2) *)

Lemma Qle_bool_div (x y c : Q) :
  (0 < c)%Q -> Qle_bool (x / c)%Q (y / c)%Q = Qle_bool x y.
Proof.
  intro Hc; apply eq_true_iff_eq; rewrite !Qle_bool_iff.
  unfold Qdiv; apply Qmult_le_r, Qinv_lt_0_compat, Hc.
Qed.

Lemma Qeq_bool_pos (c : Q) : (0 < c)%Q -> Qeq_bool c 0 = false.
Proof.
  intro Hc; destruct (Qeq_bool c 0) eqn:E; [|reflexivity].
  apply Qeq_bool_iff in E; rewrite E in Hc; exact (False_ind _ (Qlt_irrefl _ Hc)).
Qed.

Lemma Qeq_bool_nonzero (c : Q) : ~ c == 0 -> Qeq_bool c 0 = false.
Proof.
  intro Hc; destruct (Qeq_bool c 0) eqn:E; [|reflexivity].
  apply Qeq_bool_iff in E; contradiction.
Qed.

(** Dividing by a positive rational keeps the kind of a number. *)
Lemma ndiv_pos (x : num) (c : Q) :
  (0 < c)%Q ->
  x / Fin c = match x with
              | Fin p => Fin (p / c)%Q
              | other => other
              end.
Proof.
  intro Hc; destruct x as [p| | |]; simpl; try reflexivity.
  - rewrite (Qeq_bool_pos _ Hc); reflexivity.
  - apply Qgt_alt in Hc; rewrite Hc; reflexivity.
  - apply Qgt_alt in Hc; rewrite Hc; reflexivity.
Qed.

Lemma nle_bool_div (x y : num) (c : Q) :
  (0 < c)%Q -> nle_bool (x / Fin c) (y / Fin c) = nle_bool x y.
Proof.
  intro Hc; rewrite !(ndiv_pos _ _ Hc).
  destruct x, y; simpl; try reflexivity.
  apply Qle_bool_div, Hc.
Qed.

Lemma filter_map_commute {A B} (f : A -> B) (p : B -> bool) (q : A -> bool)
    (l : list A) :
  (forall a, p (f a) = q a) -> filter p (map f l) = map f (filter q l).
Proof.
  intro H; induction l as [|a l IH]; simpl; [reflexivity|].
  rewrite H, IH; destruct (q a); reflexivity.
Qed.

Lemma struct_doses_vdivs (vox : list nat) (d : vec) (c : num) :
  struct_doses vox (vdivs d c) = vdivs (struct_doses vox d) c.
Proof.
  unfold struct_doses, vdivs; induction vox as [|i vox IH]; simpl; [reflexivity|].
  rewrite map_app, IH, nth_error_map.
  destruct (nth_error d i); reflexivity.
Qed.

Lemma count_ge_vdivs (D : num) (c : Q) (ds : vec) :
  (0 < c)%Q -> count_ge (D / Fin c) (vdivs ds (Fin c)) = count_ge D ds.
Proof.
  intro Hc; unfold count_ge, vdivs.
  rewrite (filter_map_commute _ _ (fun y => nle_bool D y)), length_map;
    [reflexivity|].
  intro a; apply nle_bool_div, Hc.
Qed.

Lemma reached_vdivs (v : Q) (D : num) (c : Q) (ds : vec) :
  (0 < c)%Q -> reached v (vdivs ds (Fin c)) (D / Fin c) = reached v ds D.
Proof.
  intro Hc; unfold reached.
  rewrite (count_ge_vdivs _ _ _ Hc); unfold vdivs; rewrite length_map; reflexivity.
Qed.

Lemma qmax_list_vdivs (l : vec) (c : Q) :
  (0 < c)%Q ->
  qmax_list (vdivs l (Fin c)) = option_map (fun a => a / Fin c) (qmax_list l).
Proof.
  intro Hc; induction l as [|x l IH]; simpl; [reflexivity|].
  fold (vdivs l (Fin c)); rewrite IH.
  destruct (qmax_list l) as [m|]; simpl; [|reflexivity].
  rewrite (nle_bool_div _ _ _ Hc); destruct (nle_bool x m); reflexivity.
Qed.

(** Scaling the doses by a positive factor scales the dose at volume. *)
Lemma dose_at_volume_vdivs (structures : string -> option (list nat))
    (d : vec) (st : string) (v c : Q) :
  (0 < c)%Q ->
  dose_at_volume structures (vdivs d (Fin c)) st v =
  match dose_at_volume structures d st v with
  | Returns D => Returns (D / Fin c)
  | Fails msg => Fails msg
  end.
Proof.
  intro Hc; unfold dose_at_volume.
  destruct (structures st) as [vox|]; [|reflexivity].
  cbv zeta; rewrite struct_doses_vdivs.
  set (ds := struct_doses vox d).
  replace (filter (reached v (vdivs ds (Fin c))) (vdivs ds (Fin c)))
    with (vdivs (filter (reached v ds) ds) (Fin c)).
  - rewrite (qmax_list_vdivs _ _ Hc).
    destruct (qmax_list (filter (reached v ds) ds)); reflexivity.
  - symmetry; apply filter_map_commute.
    intro a; apply reached_vdivs, Hc.
Qed.

Lemma Qdiv_pos_nonzero (a b : Q) : (0 < a / b)%Q -> ~ a == 0 /\ ~ b == 0.
Proof.
  intro H; split; intro E; rewrite E in H.
  - unfold Qdiv in H; rewrite Qmult_0_l in H; exact (Qlt_irrefl _ H).
  - unfold Qdiv in H; change (/ 0)%Q with 0%Q in H; rewrite Qmult_0_r in H.
    exact (Qlt_irrefl _ H).
Qed.

(** C2, as the code has it. For every dose array whose dose at volume at
    the reference point (PTV, 90 percent) is nonzero and has the sign of
    the prescription, that is, whose normalization factor is positive:
    dividing the array by the factor gives a dose distribution whose dose
    at volume at the same point equals the prescription. The same two
    statements normalize before the loop and in every iteration. *)
Theorem normalization_reaches_prescription
    (structures : string -> option (list nat)) (pp : library)
    (sol : solution) (d : vec) (D p : Q) :
  (forall s x st v, get_dose pp s x st v = dose_at_volume structures x st v) ->
  get_prescription pp = Fin p ->
  get_dose pp sol d norm_struct norm_volume = Returns (Fin D) ->
  (0 < D / p)%Q ->
  exists (d' : vec) (D' : Q),
    result (normalize pp sol d) = Ok d' /\
    d' = vdivs d (Fin (D / p)%Q) /\
    get_dose pp sol d' norm_struct norm_volume = Returns (Fin D') /\
    D' == p.
Proof.
  intros Hmodel Hp HD Hpos.
  destruct (Qdiv_pos_nonzero _ _ Hpos) as [HD0 Hp0].
  assert (Hfactor : Fin D / get_prescription pp = Fin (D / p)%Q)
    by (rewrite Hp; simpl; rewrite (Qeq_bool_nonzero _ Hp0); reflexivity).
  exists (vdivs d (Fin (D / p)%Q)), (D / (D / p))%Q.
  split; [rewrite (normalize_returns _ _ _ _ HD), Hfactor; reflexivity|].
  split; [reflexivity|].
  split.
  - rewrite Hmodel in HD.
    rewrite Hmodel, (dose_at_volume_vdivs _ _ _ _ _ Hpos), HD.
    rewrite (ndiv_pos _ _ Hpos); reflexivity.
  - field; split; assumption.
Qed.

(** ** More iterations, and what the last solve saw *)

Lemma delta_history_add (pp : library) (sol : solution) (n m : nat) :
  forall st st1,
    result (correction_loop pp sol n st) = Ok st1 ->
    delta_history pp sol (n + m) st =
    delta_history pp sol n st ++ delta_history pp sol m st1.
Proof.
  induction n as [|n IH]; intros st st1 H.
  - injection H as <-; reflexivity.
  - rewrite correction_loop_S in H.
    apply result_bind_Ok in H as (st2 & Hbody & Hrest).
    change (S n + m)%nat with (S (n + m)); simpl.
    rewrite Hbody, (IH _ _ Hrest); reflexivity.
Qed.

(** X1. Running the loop for [n + m] iterations is running it for [n]
    and going on for [m] from the variables the first [n] left: the calls
    of the longer run are those of the shorter one followed by those of
    the continuation, and the accumulated deltas of the first [n]
    iterations are the same in both. Raising the iteration count adds
    iterations and changes none of the earlier ones. *)
Theorem correction_loop_resumes (pp : library) (sol : solution) (n m : nat)
    (st st1 : loop_vars) :
  result (correction_loop pp sol n st) = Ok st1 ->
  correction_loop pp sol (n + m) st =
    (trace (correction_loop pp sol n st) ++ trace (correction_loop pp sol m st1),
     result (correction_loop pp sol m st1)) /\
  delta_history pp sol (n + m) st =
    delta_history pp sol n st ++ delta_history pp sol m st1.
Proof.
  intro H; split.
  - rewrite correction_loop_add, bind_unfold, H; reflexivity.
  - apply delta_history_add; exact H.
Qed.

(** X2. In a loop that runs to its end, the correction terms handed to
    the solver are the delta the loop started with followed by the
    accumulated deltas after each iteration but the last: the delta
    accumulated by the last iteration is handed to no solve. *)
Theorem last_delta_is_not_solved_with (pp : library) (sol : solution) (n : nat) :
  forall st st' : loop_vars,
    old_delta st = delta st ->
    result (correction_loop pp sol n st) = Ok st' ->
    corrections (trace (correction_loop pp sol n st)) ++ [delta st'] =
      delta st :: delta_history pp sol n st /\
    List.length (delta_history pp sol n st) = n.
Proof.
  induction n as [|n IH]; intros st st' Hinv H.
  - injection H as <-; split; reflexivity.
  - rewrite correction_loop_S in *; rewrite trace_bind, trace_loop_body.
    apply result_bind_Ok in H as (st1 & Hbody & Hrest).
    simpl delta_history; rewrite Hbody.
    rewrite corrections_app, corrections_recompute_delta.
    destruct (loop_body_Ok _ _ _ _ Hbody) as (sc & new & _ & Hst1).
    assert (Hinv1 : old_delta st1 = delta st1) by (rewrite Hst1; reflexivity).
    destruct (IH _ _ Hinv1 Hrest) as [Hcorr Hlen].
    split.
    + simpl; f_equal; exact Hcorr.
    + simpl; f_equal; exact Hlen.
Qed.

(** X3. After a loop of at least one iteration that runs to its end,
    [sol_corr] is the answer of the last correction solve, the one made
    with the last correction term of the log. It is the solution the
    script exports after the loop (line 182). *)
Theorem sol_corr_is_last_solve (pp : library) (sol : solution) (n : nat) :
  forall st st' : loop_vars,
    result (correction_loop pp sol (S n) st) = Ok st' ->
    exists (sc : solution) (ds : list vec) (d : vec),
      sol_corr st' = Some sc /\
      corrections (trace (correction_loop pp sol (S n) st)) = ds ++ [d] /\
      List.length ds = n /\
      solve_correction pp d = Returns sc.
Proof.
  induction n as [|n IH]; intros st st' H.
  - rewrite correction_loop_S in *; rewrite trace_bind, trace_loop_body.
    apply result_bind_Ok in H as (st1 & Hbody & Hrest).
    injection Hrest as <-; rewrite Hbody.
    destruct (loop_body_Ok _ _ _ _ Hbody) as (sc & new & Hnew & ->).
    destruct (recompute_delta_Ok _ _ _ _ _ Hnew) as (_ & _ & Hsc & _).
    exists sc, [], (delta st).
    rewrite corrections_app, corrections_recompute_delta; repeat split; assumption.
  - rewrite correction_loop_S in H.
    apply result_bind_Ok in H as (st1 & Hbody & Hrest).
    destruct (IH _ _ Hrest) as (sc & ds & d & Hsc & Hcorr & Hlen & Hsolve).
    exists sc, (delta st :: ds), d.
    rewrite (correction_loop_S pp sol (S n)), trace_bind, trace_loop_body, Hbody.
    rewrite corrections_app, corrections_recompute_delta, Hcorr.
    repeat split; try assumption.
    simpl; f_equal; exact Hlen.
Qed.

(** ** The calls of a run *)

Section Calls.
Variable pp : library.

Lemma reference_normalize (sol : solution) (d : vec) :
  Forall at_reference_point (trace (normalize pp sol d)).
Proof. rewrite trace_normalize; repeat constructor. Qed.

Lemma reference_initial_delta (sol : solution) :
  Forall at_reference_point (trace (initial_delta pp sol)).
Proof.
  unfold initial_delta; rewrite trace_bind.
  destruct (result (normalize pp sol (dose_sparse_1d pp sol)));
    [|apply reference_normalize].
  apply Forall_app; split; [apply reference_normalize|].
  rewrite trace_bind.
  destruct (result (normalize pp sol (dose_full_1d pp sol)));
    [|apply reference_normalize].
  apply Forall_app; split; [apply reference_normalize | constructor].
Qed.

Lemma reference_recompute_delta (sol : solution) (d : vec) :
  Forall at_reference_point (trace (recompute_delta pp sol d)).
Proof.
  unfold recompute_delta; rewrite trace_bind, result_call, trace_call.
  destruct (raised (solve_correction pp d)) as [sc|]; [|repeat constructor].
  apply Forall_app; split; [repeat constructor|].
  rewrite trace_bind.
  destruct (result (normalize pp sol (dose_sparse_corr_1d pp sc d)));
    [|apply reference_normalize].
  apply Forall_app; split; [apply reference_normalize|].
  rewrite trace_bind.
  destruct (result (normalize pp sol (dose_full_corr_1d pp sc)));
    [|apply reference_normalize].
  apply Forall_app; split; [apply reference_normalize|].
  simpl; constructor.
Qed.

Lemma reference_correction_loop (sol : solution) (n : nat) :
  forall st, Forall at_reference_point (trace (correction_loop pp sol n st)).
Proof.
  induction n as [|n IH]; intro st; [constructor|].
  rewrite correction_loop_S, trace_bind, trace_loop_body.
  destruct (result (loop_body pp sol st)) as [st1|e];
    [|apply reference_recompute_delta].
  apply Forall_app; split; [apply reference_recompute_delta | apply IH].
Qed.

Lemma uncorrected_solves_app (l1 l2 : list event) :
  uncorrected_solves (l1 ++ l2) =
  (uncorrected_solves l1 + uncorrected_solves l2)%nat.
Proof.
  induction l1 as [|[[d|]|s d st v] l1 IH]; simpl; rewrite ?IH; reflexivity.
Qed.

Lemma uncorrected_solves_normalize (sol : solution) (d : vec) :
  uncorrected_solves (trace (normalize pp sol d)) = O.
Proof. rewrite trace_normalize; reflexivity. Qed.

Lemma uncorrected_solves_initial_delta (sol : solution) :
  uncorrected_solves (trace (initial_delta pp sol)) = O.
Proof.
  unfold initial_delta; rewrite trace_bind.
  destruct (result (normalize pp sol (dose_sparse_1d pp sol)));
    [|apply uncorrected_solves_normalize].
  rewrite uncorrected_solves_app, uncorrected_solves_normalize, trace_bind.
  destruct (result (normalize pp sol (dose_full_1d pp sol)));
    [|apply uncorrected_solves_normalize].
  rewrite uncorrected_solves_app, uncorrected_solves_normalize; reflexivity.
Qed.

Lemma uncorrected_solves_recompute_delta (sol : solution) (d : vec) :
  uncorrected_solves (trace (recompute_delta pp sol d)) = O.
Proof.
  unfold recompute_delta; rewrite trace_bind, result_call, trace_call.
  destruct (raised (solve_correction pp d)) as [sc|]; [|reflexivity].
  rewrite uncorrected_solves_app, trace_bind.
  change (uncorrected_solves [Solve (Some d)]) with O.
  destruct (result (normalize pp sol (dose_sparse_corr_1d pp sc d)));
    [|apply uncorrected_solves_normalize].
  rewrite uncorrected_solves_app, uncorrected_solves_normalize, trace_bind.
  destruct (result (normalize pp sol (dose_full_corr_1d pp sc)));
    [|apply uncorrected_solves_normalize].
  rewrite uncorrected_solves_app, uncorrected_solves_normalize; reflexivity.
Qed.

Lemma uncorrected_solves_correction_loop (sol : solution) (n : nat) :
  forall st, uncorrected_solves (trace (correction_loop pp sol n st)) = O.
Proof.
  induction n as [|n IH]; intro st; [reflexivity|].
  rewrite correction_loop_S, trace_bind, trace_loop_body.
  destruct (result (loop_body pp sol st)) as [st1|e];
    [|apply uncorrected_solves_recompute_delta].
  rewrite uncorrected_solves_app, uncorrected_solves_recompute_delta, IH.
  reflexivity.
Qed.

Lemma length_trace_correction_loop_Ok (sol : solution) (n : nat) :
  forall st st',
    result (correction_loop pp sol n st) = Ok st' ->
    List.length (trace (correction_loop pp sol n st)) = (3 * n)%nat.
Proof.
  induction n as [|n IH]; intros st st' H; [reflexivity|].
  rewrite correction_loop_S in *; rewrite trace_bind, trace_loop_body.
  apply result_bind_Ok in H as (st1 & Hbody & Hrest); rewrite Hbody.
  destruct (loop_body_Ok _ _ _ _ Hbody) as (sc & new & Hnew & _).
  rewrite (trace_recompute_delta_Ok _ _ _ _ _ Hnew), length_app, (IH _ _ Hrest).
  simpl; lia.
Qed.

Lemma length_corrections_correction_loop_Ok (sol : solution) (n : nat) :
  forall st st',
    result (correction_loop pp sol n st) = Ok st' ->
    List.length (corrections (trace (correction_loop pp sol n st))) = n.
Proof.
  induction n as [|n IH]; intros st st' H; [reflexivity|].
  rewrite correction_loop_S in *; rewrite trace_bind, trace_loop_body.
  apply result_bind_Ok in H as (st1 & Hbody & Hrest); rewrite Hbody.
  rewrite corrections_app, corrections_recompute_delta, length_app.
  rewrite (IH _ _ Hrest); reflexivity.
Qed.

End Calls.

(** X4. Every dose evaluation of a run, before the loop and in every
    iteration, is made at the one reference point: structure PTV, 90
    percent volume. The loop's own assignments to [norm_struct] and
    [norm_volume] (lines 155-156) leave the point where lines 126-127
    put it. *)
Theorem evaluations_at_reference_point (pp : library) :
  Forall at_reference_point (trace (script pp)) /\
  (forall sol n st,
     Forall at_reference_point (trace (correction_loop pp sol n st))).
Proof.
  split; [|intros sol n st; apply reference_correction_loop].
  unfold script; rewrite trace_bind, result_call, trace_call.
  destruct (raised (solve pp)) as [sol|]; [|repeat constructor].
  apply Forall_app; split; [repeat constructor|].
  rewrite trace_bind.
  destruct (result (initial_delta pp sol)) as [d0|];
    [|apply reference_initial_delta].
  apply Forall_app; split;
    [apply reference_initial_delta | apply reference_correction_loop].
Qed.

(** X5. Neither the delta computation nor the correction loop solves the
    problem without a correction term, whatever the iteration count: from
    line 57 on it is solved once, at line 57. A run of lines 57-176 that
    reaches its end has made nine solver and dose-evaluation calls: that
    solve, two dose evaluations for the initial delta, and in each of the
    two iterations one correction solve followed by two dose
    evaluations. *)
Theorem script_call_budget (pp : library) :
  (forall sol, uncorrected_solves (trace (initial_delta pp sol)) = 0%nat) /\
  (forall sol n st,
     uncorrected_solves (trace (correction_loop pp sol n st)) = 0%nat) /\
  (forall st',
     result (script pp) = Ok st' ->
     uncorrected_solves (trace (script pp)) = 1%nat /\
     List.length (trace (script pp)) = 9%nat /\
     List.length (corrections (trace (script pp))) = 2%nat /\
     List.length (dose_solutions (trace (script pp))) = 6%nat).
Proof.
  split; [|split].
  - intro sol; apply uncorrected_solves_initial_delta.
  - intros sol n st; apply uncorrected_solves_correction_loop.
  - intros st' H; pose proof H as H'; unfold script in H'.
    apply result_bind_Ok in H' as (sol & Hsol & H').
    apply result_bind_Ok in H' as (d0 & Hd0 & Hloop).
    rewrite result_call in Hsol; apply raised_Ok in Hsol.
    rewrite (trace_script_Returns _ _ _ Hsol Hd0).
    split.
    { rewrite !uncorrected_solves_app, uncorrected_solves_initial_delta,
        uncorrected_solves_correction_loop; reflexivity. }
    rewrite (trace_initial_delta_Ok _ _ _ Hd0).
    rewrite !length_app, !corrections_app, !dose_solutions_app, !length_app.
    rewrite (length_trace_correction_loop_Ok _ _ _ _ _ Hloop).
    rewrite (dose_solutions_correction_loop_Ok _ _ _ _ _ Hloop), repeat_length.
    rewrite (length_corrections_correction_loop_Ok _ _ _ _ _ Hloop).
    repeat split; reflexivity.
Qed.

(** ** Arithmetic of the arrays *)

Lemma length_zip_with (f : num -> num -> num) (u : vec) :
  forall v, List.length (zip_with f u v) = Nat.min (List.length u) (List.length v).
Proof.
  induction u as [|a u IH]; intros [|b v]; simpl; try reflexivity.
  rewrite IH; reflexivity.
Qed.

Lemma length_matvec (A : matrix) (x : vec) :
  List.length (matvec A x) = List.length A.
Proof. unfold matvec; apply length_map. Qed.

Lemma length_vscale (x : vec) (c : num) : List.length (vscale x c) = List.length x.
Proof. unfold vscale; apply length_map. Qed.

Lemma length_vdivs (x : vec) (c : num) : List.length (vdivs x c) = List.length x.
Proof. unfold vdivs; apply length_map. Qed.

Lemma agree_length (u v : vec) : agree u v -> List.length u = List.length v.
Proof. induction 1; simpl; congruence. Qed.


Lemma vsub_agree_zero (u v : vec) : agree u v -> all_zero (vsub u v).
Proof.
  induction 1 as [|a b u v Hab Huv IH]; simpl; constructor; [|exact IH].
  destruct a as [p| | |], b as [q| | |]; simpl in *; try contradiction.
  rewrite Hab; ring.
Qed.

Lemma all_zero_vdivs (v : vec) (c : num) :
  finite_nonzero c -> all_zero v -> all_zero (vdivs v c).
Proof.
  intros Hc; destruct c as [q| | |]; simpl in Hc; try contradiction.
  induction 1 as [|a v Ha Hv IH]; simpl; constructor; [|exact IH].
  destruct a as [p| | |]; simpl in *; try contradiction.
  rewrite (Qeq_bool_nonzero _ Hc); simpl.
  rewrite Ha; unfold Qdiv; ring.
Qed.



Lemma vadd_all_zero (acc : vec) :
  forall z, all_zero z -> List.length z = List.length acc -> veq (vadd acc z) acc.
Proof.
  induction acc as [|a acc IH]; intros [|b z] Hz Hlen; simpl in *;
    try discriminate; [constructor|].
  inversion Hz as [|b' z' Hb Hz']; subst.
  constructor; [|apply IH; [assumption | congruence]].
  destruct b as [q| | |]; simpl in Hb; try contradiction.
  destruct a as [p| | |]; simpl; try exact I.
  rewrite Hb; ring.
Qed.


(** X8. Agreement is a fixed point of the iteration: if, in an iteration
    that starts with [old_delta = delta] of one entry per row of the full
    matrix and divides by a finite nonzero fraction count, the normalized
    full dose and the normalized sparse dose are finite and agree entry by
    entry, the iteration leaves the accumulated delta as it was. *)
Theorem agreement_is_fixed_point (pp : library) (sol : solution)
    (st st' : loop_vars) :
  result (loop_body pp sol st) = Ok st' ->
  old_delta st = delta st ->
  List.length (delta st) = List.length (inf_matrix_full_A pp) ->
  finite_nonzero (get_num_of_fractions pp) ->
  (forall sc gs gf,
     sol_corr st' = Some sc ->
     get_dose pp sol (dose_sparse_corr_1d pp sc (delta st))
              norm_struct norm_volume = Returns gs ->
     get_dose pp sol (dose_full_corr_1d pp sc) norm_struct norm_volume = Returns gf ->
     agree (vdivs (dose_full_corr_1d pp sc) (gf / get_prescription pp))
           (vdivs (dose_sparse_corr_1d pp sc (delta st)) (gs / get_prescription pp))) ->
  veq (delta st') (delta st).
Proof.
  intros H Hinv Hlen Hn Hagree.
  destruct (loop_body_Ok _ _ _ _ H) as (sc & new & Hnew & ->).
  destruct (recompute_delta_Ok _ _ _ _ _ Hnew) as (gs & gf & _ & Hgs & Hgf & ->).
  specialize (Hagree sc gs gf eq_refl Hgs Hgf).
  simpl delta; rewrite Hinv.
  apply vadd_all_zero.
  - apply all_zero_vdivs; [exact Hn|]. apply vsub_agree_zero, Hagree.
  - rewrite length_vdivs; unfold vsub; rewrite length_zip_with.
    rewrite <- (agree_length _ _ Hagree), Nat.min_id, length_vdivs.
    unfold dose_full_corr_1d; rewrite length_matvec; symmetry; exact Hlen.
Qed.

Section Shapes.
Variable pp : library.
Hypothesis same_rows :
  List.length (inf_matrix_full_A pp) = List.length (inf_matrix_A pp).

Lemma length_initial_delta (sol : solution) (d0 : vec) :
  result (initial_delta pp sol) = Ok d0 ->
  List.length d0 = List.length (inf_matrix_A pp).
Proof.
  intro H.
  destruct (initial_delta_Ok _ _ _ H) as (gs & gf & _ & _ & ->).
  rewrite length_vdivs; unfold vsub.
  rewrite length_zip_with, !length_vdivs.
  unfold dose_full_1d, dose_sparse_1d; rewrite !length_matvec, same_rows.
  apply Nat.min_id.
Qed.

Lemma length_loop_body (sol : solution) (st st' : loop_vars) :
  List.length (delta st) = List.length (inf_matrix_A pp) ->
  List.length (old_delta st) = List.length (inf_matrix_A pp) ->
  result (loop_body pp sol st) = Ok st' ->
  List.length (delta st') = List.length (inf_matrix_A pp) /\
  List.length (old_delta st') = List.length (inf_matrix_A pp).
Proof.
  intros Hd Ho H.
  destruct (loop_body_Ok _ _ _ _ H) as (sc & new & Hnew & ->).
  destruct (recompute_delta_Ok _ _ _ _ _ Hnew) as (gs & gf & _ & _ & _ & ->).
  simpl delta; simpl old_delta.
  assert (E : List.length
                (vadd (old_delta st)
                   (vdivs (vsub (vdivs (dose_full_corr_1d pp sc)
                                       (gf / get_prescription pp))
                                (vdivs (dose_sparse_corr_1d pp sc (delta st))
                                       (gs / get_prescription pp)))
                          (get_num_of_fractions pp)))
              = List.length (inf_matrix_A pp)).
  { unfold vadd, vsub; rewrite length_zip_with, length_vdivs, length_zip_with.
    rewrite !length_vdivs.
    unfold dose_full_corr_1d, dose_sparse_corr_1d.
    rewrite length_vscale; unfold vadd.
    rewrite length_zip_with, !length_matvec, same_rows, Hd, Ho.
    rewrite !Nat.min_id; reflexivity. }
  split; exact E.
Qed.

Lemma length_correction_loop (sol : solution) (n : nat) :
  forall st st',
    List.length (delta st) = List.length (inf_matrix_A pp) ->
    List.length (old_delta st) = List.length (inf_matrix_A pp) ->
    result (correction_loop pp sol n st) = Ok st' ->
    List.length (delta st') = List.length (inf_matrix_A pp) /\
    Forall (fun d => List.length d = List.length (inf_matrix_A pp))
           (corrections (trace (correction_loop pp sol n st))).
Proof.
  induction n as [|n IH]; intros st st' Hd Ho H.
  - injection H as <-; split; [exact Hd | constructor].
  - rewrite correction_loop_S in *; rewrite trace_bind, trace_loop_body.
    apply result_bind_Ok in H as (st1 & Hbody & Hrest); rewrite Hbody.
    destruct (length_loop_body _ _ _ Hd Ho Hbody) as [Hd1 Ho1].
    destruct (IH _ _ Hd1 Ho1 Hrest) as [Hfin Hall].
    split; [exact Hfin|].
    rewrite corrections_app, corrections_recompute_delta.
    constructor; assumption.
Qed.

End Shapes.

(** X9. The delta keeps its shape. If the two influence matrices have the
    same number of rows (one per voxel), then in a run that reaches its
    end the initial delta, every correction term handed to the solver and
    the final accumulated delta have one entry per row; so do they in a
    loop started from variables of that shape. *)
Theorem delta_keeps_shape (pp : library) :
  List.length (inf_matrix_full_A pp) = List.length (inf_matrix_A pp) ->
  (forall st',
     result (script pp) = Ok st' ->
     List.length (delta st') = List.length (inf_matrix_A pp) /\
     Forall (fun d => List.length d = List.length (inf_matrix_A pp))
            (corrections (trace (script pp)))) /\
  (forall sol n st st',
     List.length (delta st) = List.length (inf_matrix_A pp) ->
     List.length (old_delta st) = List.length (inf_matrix_A pp) ->
     result (correction_loop pp sol n st) = Ok st' ->
     List.length (delta st') = List.length (inf_matrix_A pp) /\
     Forall (fun d => List.length d = List.length (inf_matrix_A pp))
            (corrections (trace (correction_loop pp sol n st)))).
Proof.
  intro Hrows; split.
  - intros st' H; pose proof H as H'; unfold script in H'.
    apply result_bind_Ok in H' as (sol & Hsol & H').
    apply result_bind_Ok in H' as (d0 & Hd0 & Hloop).
    rewrite result_call in Hsol; apply raised_Ok in Hsol.
    pose proof (length_initial_delta pp Hrows _ _ Hd0) as Hlen.
    destruct (length_correction_loop pp Hrows sol num_corr
                {| delta := d0; old_delta := d0; sol_corr := None |} st'
                Hlen Hlen Hloop) as [Hfin Hall].
    split; [exact Hfin|].
    rewrite (trace_script_Returns _ _ _ Hsol Hd0).
    rewrite !corrections_app, corrections_initial_delta; exact Hall.
  - intros sol n st st'; apply length_correction_loop; exact Hrows.
Qed.

(** X11. A correction solve is made only once the initial delta is there:
    whenever a run hands a correction term to the solver, the first solve
    had returned a solution, the initial delta had been computed from it,
    and the first correction term is that initial delta. A run whose first
    solve or initial dose evaluations fail makes no correction solve. *)
Theorem first_correction_is_initial_delta (pp : library) (d : vec)
    (ds : list vec) :
  corrections (trace (script pp)) = d :: ds ->
  exists sol : solution,
    solve pp = Returns sol /\ result (initial_delta pp sol) = Ok d.
Proof.
  unfold script; rewrite trace_bind, result_call, trace_call.
  destruct (solve pp) as [sol|msg] eqn:Hsol; simpl raised; cbv iota beta;
    [|discriminate].
  rewrite corrections_app, trace_bind.
  change (corrections [Solve None]) with (@nil vec); rewrite app_nil_l.
  destruct (result (initial_delta pp sol)) as [d0|e] eqn:Hd0.
  - rewrite corrections_app, corrections_initial_delta, app_nil_l.
    unfold num_corr; rewrite correction_loop_S, trace_bind, trace_loop_body.
    intro H; exists sol; split; [reflexivity|].
    destruct (result (loop_body pp sol _));
      rewrite ?corrections_app, corrections_recompute_delta in H;
      injection H as <- _; exact Hd0.
  - rewrite corrections_initial_delta; discriminate.
Qed.

(** ** Runs on the small plan *)

Lemma correction_loop_accumulates_witness :
  exists (st' : loop_vars) (ds : list vec),
    result (correction_loop Example.plan Example.sol 2 Example.start) = Ok st' /\
    List.length ds = 2%nat /\
    delta st' = fold_left vadd ds (delta Example.start).
Proof.
  destruct (result (correction_loop Example.plan Example.sol 2 Example.start))
    as [st'|e] eqn:E; [|vm_compute in E; discriminate].
  destruct (correction_loop_accumulates Example.plan Example.sol 2
              Example.start st' eq_refl E)
    as (ds & Hlen & _ & _ & Hsum & _).
  exists st', ds; auto.
Defined.

Lemma loop_body_recomputes_delta_witness :
  exists (st' : loop_vars) (sc : solution),
    result (loop_body Example.plan Example.sol Example.start) = Ok st' /\
    solve_correction Example.plan (delta Example.start) = Returns sc /\
    sol_corr st' = Some sc.
Proof.
  destruct (result (loop_body Example.plan Example.sol Example.start))
    as [st'|e] eqn:E; [|vm_compute in E; discriminate].
  destruct (loop_body_recomputes_delta _ _ _ _ E)
    as (sc & gs & gf & new & _ & Hsc & Hst & _).
  exists st', sc; auto.
Defined.

Lemma delta_enters_sparse_dose_only_witness :
  exists (st' : loop_vars) (sc : solution),
    result (loop_body Example.plan Example.sol Example.start) = Ok st' /\
    sol_corr st' = Some sc /\
    List.length (trace (loop_body Example.plan Example.sol Example.start)) = 3%nat.
Proof.
  destruct (result (loop_body Example.plan Example.sol Example.start))
    as [st'|e] eqn:E; [|vm_compute in E; discriminate].
  destruct (delta_enters_sparse_dose_only _ _ _ _ E) as (sc & Hsc & _ & _ & Htr).
  exists st', sc; rewrite Htr; auto.
Defined.

Lemma initial_delta_is_normalized_difference_witness :
  solve Example.plan = Returns Example.sol /\
  result (initial_delta Example.plan Example.sol) =
    Ok (Example.arr [0 # 12420000; -2700000 # 12420000]) /\
  hd_error (corrections (trace (script Example.plan))) =
    Some (Example.arr [0 # 12420000; -2700000 # 12420000]).
Proof.
  assert (Hsol : solve Example.plan = Returns Example.sol) by reflexivity.
  assert (Hd0 : result (initial_delta Example.plan Example.sol) =
                Ok (Example.arr [0 # 12420000; -2700000 # 12420000]))
    by (vm_compute; reflexivity).
  split; [exact Hsol|]. split; [exact Hd0|].
  exact (proj2 (initial_delta_is_normalized_difference _ _ _ Hsol Hd0)).
Defined.


Lemma solver_failure_propagates_witness :
  solve Example.unsolved = Fails "MOSEK" /\
  script Example.unsolved = ([Solve None], Raise (LibraryError "MOSEK")) /\
  result (correction_loop Example.stalls Example.sol 2 Example.start) =
    Raise (LibraryError "MOSEK").
Proof.
  destruct (solver_failure_propagates Example.unsolved "MOSEK") as (H1 & _).
  destruct (solver_failure_propagates Example.stalls "MOSEK") as (_ & H2 & _).
  split; [reflexivity|]. split; [exact (H1 eq_refl)|].
  destruct (result (correction_loop Example.stalls Example.sol 1 Example.start))
    as [st'|e] eqn:E; [|vm_compute in E; discriminate].
  assert (Hfail : solve_correction Example.stalls (delta st') = Fails "MOSEK").
  { pose proof E as E'; vm_compute in E'; injection E' as <-.
    vm_compute; reflexivity. }
  pose proof (H2 Example.sol 1%nat 0%nat Example.start st' E Hfail) as H.
  change (1 + 1)%nat with 2%nat in H; rewrite H; reflexivity.
Defined.

Lemma loop_evaluates_with_original_solution_witness :
  solve Example.plan = Returns Example.sol /\
  Forall (eq Example.sol) (dose_solutions (trace (script Example.plan))).
Proof.
  split; [reflexivity|].
  destruct (loop_evaluates_with_original_solution Example.plan Example.sol)
    as (_ & _ & H).
  exact (H eq_refl).
Defined.

Lemma normalization_reaches_prescription_witness :
  (forall s x st v,
     get_dose Example.plan s x st v = dose_at_volume Example.structures x st v) /\
  get_prescription Example.plan = Fin 60 /\
  get_dose Example.plan Example.sol (Example.arr [30; 90]) norm_struct norm_volume
    = Returns (Fin 30) /\
  (0 < 30 / 60)%Q /\
  exists (d' : vec) (D' : Q),
    result (normalize Example.plan Example.sol (Example.arr [30; 90])) = Ok d' /\
    d' = vdivs (Example.arr [30; 90]) (Fin (30 / 60)%Q) /\
    veq d' (Example.arr [60; 180]) /\
    get_dose Example.plan Example.sol d' norm_struct norm_volume = Returns (Fin D') /\
    D' == 60.
Proof.
  assert (Hm : forall s x st v,
    get_dose Example.plan s x st v = dose_at_volume Example.structures x st v)
    by reflexivity.
  assert (Hp : get_prescription Example.plan = Fin 60) by reflexivity.
  assert (HD : get_dose Example.plan Example.sol (Example.arr [30; 90])
                 norm_struct norm_volume = Returns (Fin 30))
    by (vm_compute; reflexivity).
  assert (Hpos : (0 < 30 / 60)%Q) by reflexivity.
  repeat (split; [assumption|]).
  destruct (normalization_reaches_prescription _ _ _ _ _ _ Hm Hp HD Hpos)
    as (d' & D' & Hd' & Hval & HD' & Heq).
  exists d', D'; repeat (split; [assumption|]).
  split; [|split; assumption].
  rewrite Hval; repeat constructor; vm_compute; reflexivity.
Defined.

(** C2, as stated, fails where the dose at the reference point is
    negative. On the small plan (prescription 60) the array [-1; -2] has
    dose at volume -2 at (PTV, 90); the factor is -2/60; the normalized
    array is [30; 60], and its dose at volume at the same point is 30. *)
Lemma normalization_of_negative_dose_counterexample :
  exists (D : Q) (d' : vec) (D' : Q),
    get_dose Example.plan Example.sol (Example.arr [-1; -2])
             norm_struct norm_volume = Returns (Fin D) /\
    ~ D == 0 /\
    result (normalize Example.plan Example.sol (Example.arr [-1; -2])) = Ok d' /\
    d' = vdivs (Example.arr [-1; -2]) (Fin D / get_prescription Example.plan) /\
    veq d' (Example.arr [30; 60]) /\
    get_dose Example.plan Example.sol d' norm_struct norm_volume = Returns (Fin D') /\
    D' == 30 /\
    ~ D' == 60 /\
    get_prescription Example.plan = Fin 60.
Proof.
  exists (-2)%Q, (vdivs (Example.arr [-1; -2]) (Fin (-2) / Fin 60)),
         (-1 / (-2 / 60))%Q.
  split; [vm_compute; reflexivity|].
  split; [intro H; discriminate H|].
  split; [vm_compute; reflexivity|].
  split; [reflexivity|].
  split; [repeat constructor; vm_compute; reflexivity|].
  split; [vm_compute; reflexivity|].
  split; [reflexivity|].
  split; [intro H; discriminate H | reflexivity].
Qed.

(** A zero divisor does not end the run. Without a prescription every
    normalization factor is infinite and every normalized dose is zero;
    the script still makes its nine calls and ends with a zero delta. *)
Lemma zero_prescription_run_goes_on :
  exists st' : loop_vars,
    result (script Example.unprescribed) = Ok st' /\
    List.length (trace (script Example.unprescribed)) = 9%nat /\
    result (normalize Example.unprescribed Example.sol (Example.arr [60; 90]))
      = Ok (Example.arr [0; 0]) /\
    all_zero (delta st').
Proof.
  eexists; split; [vm_compute; reflexivity|].
  split; [vm_compute; reflexivity|].
  split; [vm_compute; reflexivity|].
  repeat constructor; vm_compute; reflexivity.
Qed.

(** The arrays the loop evaluates are not doses of a plan: the correction
    term has negative entries, and the sparse estimate of line 151 adds it
    to the dose of the new intensity. On the plan [dim] the first
    iteration evaluates the sparse estimate [60; -81/23], negative in the
    second voxel whatever the dose evaluation is. With the modelled dose
    at volume its dose at (PTV, 90) is negative, and the normalized array
    misses the prescription while the iteration goes on. *)
Lemma negative_reference_dose_in_loop :
  let sc := {| optimal_intensity := Example.arr [2; 1 # 10] |} in
  let sparse := dose_sparse_corr_1d Example.dim sc (delta Example.start) in
  nth_error (trace (loop_body Example.dim Example.sol Example.start)) 1 =
    Some (GetDose Example.sol sparse norm_struct norm_volume) /\
  veq sparse (Example.arr [60; -81 # 23]) /\
  (exists st', result (loop_body Example.dim Example.sol Example.start) = Ok st') /\
  exists (D : Q) (d' : vec) (D' : Q),
    get_dose Example.dim Example.sol sparse norm_struct norm_volume
      = Returns (Fin D) /\
    (D < 0)%Q /\
    result (normalize Example.dim Example.sol sparse) = Ok d' /\
    get_dose Example.dim Example.sol d' norm_struct norm_volume = Returns (Fin D') /\
    ~ D' == 60.
Proof.
  cbv zeta; split; [vm_compute; reflexivity|].
  split; [repeat constructor; vm_compute; reflexivity|].
  split; [eexists; vm_compute; reflexivity|].
  do 3 eexists.
  split; [vm_compute; reflexivity|].
  split; [reflexivity|].
  split; [vm_compute; reflexivity|].
  split; [vm_compute; reflexivity|].
  intro H; discriminate H.
Qed.

Lemma correction_loop_resumes_witness :
  exists st1 : loop_vars,
    result (correction_loop Example.plan Example.sol 1 Example.start) = Ok st1 /\
    delta_history Example.plan Example.sol 2 Example.start =
      delta_history Example.plan Example.sol 1 Example.start ++
      delta_history Example.plan Example.sol 1 st1.
Proof.
  destruct (result (correction_loop Example.plan Example.sol 1 Example.start))
    as [st1|e] eqn:E; [|vm_compute in E; discriminate].
  exists st1; split; [reflexivity|].
  exact (proj2 (correction_loop_resumes Example.plan Example.sol 1 1
                  Example.start st1 E)).
Defined.

Lemma last_delta_is_not_solved_with_witness :
  exists st' : loop_vars,
    result (correction_loop Example.plan Example.sol 2 Example.start) = Ok st' /\
    corrections (trace (correction_loop Example.plan Example.sol 2 Example.start))
      ++ [delta st'] =
    delta Example.start :: delta_history Example.plan Example.sol 2 Example.start.
Proof.
  destruct (result (correction_loop Example.plan Example.sol 2 Example.start))
    as [st'|e] eqn:E; [|vm_compute in E; discriminate].
  exists st'; split; [reflexivity|].
  exact (proj1 (last_delta_is_not_solved_with Example.plan Example.sol 2
                  Example.start st' eq_refl E)).
Defined.

Lemma sol_corr_is_last_solve_witness :
  exists (st' : loop_vars) (sc : solution) (d : vec),
    result (correction_loop Example.plan Example.sol 2 Example.start) = Ok st' /\
    sol_corr st' = Some sc /\
    solve_correction Example.plan d = Returns sc.
Proof.
  destruct (result (correction_loop Example.plan Example.sol 2 Example.start))
    as [st'|e] eqn:E; [|vm_compute in E; discriminate].
  destruct (sol_corr_is_last_solve Example.plan Example.sol 1 Example.start st' E)
    as (sc & ds & d & Hsc & _ & _ & Hsolve).
  exists st', sc, d; auto.
Defined.

Lemma script_call_budget_witness :
  exists st' : loop_vars,
    result (script Example.plan) = Ok st' /\
    List.length (trace (script Example.plan)) = 9%nat.
Proof.
  destruct (result (script Example.plan)) as [st'|e] eqn:E;
    [|vm_compute in E; discriminate].
  exists st'; split; [reflexivity|].
  destruct (script_call_budget Example.plan) as (_ & _ & H).
  destruct (H st' E) as (_ & Hlen & _); exact Hlen.
Defined.


Lemma agreement_is_fixed_point_witness :
  exists st' : loop_vars,
    result (loop_body Example.settled Example.sol Example.kept) = Ok st' /\
    delta Example.kept = Example.arr [3 # 10; 1 # 5] /\
    veq (delta st') (delta Example.kept).
Proof.
  destruct (result (loop_body Example.settled Example.sol Example.kept))
    as [st'|e] eqn:E; [|vm_compute in E; discriminate].
  exists st'; split; [reflexivity|]. split; [reflexivity|].
  apply (agreement_is_fixed_point Example.settled Example.sol Example.kept st' E);
    [reflexivity | reflexivity | intro H; discriminate H |].
  intros sc gs gf Hsc Hgs Hgf.
  pose proof E as E'; vm_compute in E'; injection E' as <-.
  injection Hsc as <-.
  vm_compute in Hgs; injection Hgs as <-.
  vm_compute in Hgf; injection Hgf as <-.
  repeat constructor; vm_compute; reflexivity.
Defined.

Lemma delta_keeps_shape_witness :
  exists st' : loop_vars,
    List.length (inf_matrix_full_A Example.plan) =
      List.length (inf_matrix_A Example.plan) /\
    result (script Example.plan) = Ok st' /\
    List.length (delta st') = 2%nat.
Proof.
  destruct (result (script Example.plan)) as [st'|e] eqn:E;
    [|vm_compute in E; discriminate].
  exists st'; split; [reflexivity|]. split; [reflexivity|].
  destruct (delta_keeps_shape Example.plan eq_refl) as [H _].
  exact (proj1 (H st' E)).
Defined.

Lemma first_correction_is_initial_delta_witness :
  exists (d : vec) (ds : list vec),
    corrections (trace (script Example.plan)) = d :: ds /\
    result (initial_delta Example.plan Example.sol) = Ok d.
Proof.
  destruct (corrections (trace (script Example.plan))) as [|d ds] eqn:E;
    [vm_compute in E; discriminate|].
  destruct (first_correction_is_initial_delta Example.plan d ds E)
    as (sol & Hsol & Hd).
  injection Hsol as <-.
  exists d, ds; auto.
Defined.
